(** * JuMan secure storage manager ([tools/juman_secure.py])

    A shallow embedding of the key-management and encryption engine of
    [juman_secure.py] and the properties its specification states about it.

    Python values are modelled as follows.
    - [bytes] objects are lists of [Byte.byte].
    - [str] objects are lists of Unicode code points ([N]).
    - [pathlib.Path] objects are lists of path components; the file system
      is an ordered table from paths to nodes (the order is the order in
      which [iterdir] and [rglob] enumerate).
    - Functions with effects (file system, CSPRNG) are computations of a
      state-and-exception monad over [world]; a raised exception keeps the
      effects that happened before it, as in Python.

    The third-party primitives the script calls are parameters of the
    development: the AES block cipher, PBKDF2-HMAC-SHA256, the JSON/base64
    codec of [config.json], the zip container format, the Unicode tables of
    [str.isalnum] and [str.lower] outside ASCII, and the bytes produced by
    the operating system's CSPRNG.  GCM itself (counter mode, GHASH, tag
    check) and the argument checks of [cryptography]'s [AESGCM] class are
    written out, following NIST SP 800-38D and the documented behaviour of
    that class. *)

From Stdlib Require Import String Ascii List NArith ZArith Bool Lia.
From Stdlib.Strings Require Import Byte.
Import ListNotations.

Set Implicit Arguments.

(* ================================================================== *)
(** * Bytes and strings *)
(* ================================================================== *)

Definition bytes := list byte.

Definition blen (b : bytes) : Z := Z.of_nat (length b).

Definition byte_of_N (n : N) : byte :=
  match Byte.of_N (n mod 256) with
  | Some b => b
  | None => x00
  end.

Definition bits8 : Type :=
  (bool * (bool * (bool * (bool * (bool * (bool * (bool * bool)))))))%type.

Definition xor_bits8 (a b : bits8) : bits8 :=
  let '(a0, (a1, (a2, (a3, (a4, (a5, (a6, a7))))))) := a in
  let '(b0, (b1, (b2, (b3, (b4, (b5, (b6, b7))))))) := b in
  (xorb a0 b0, (xorb a1 b1, (xorb a2 b2, (xorb a3 b3,
  (xorb a4 b4, (xorb a5 b5, (xorb a6 b6, xorb a7 b7))))))).

Definition byte_xor (a b : byte) : byte :=
  Byte.of_bits (xor_bits8 (Byte.to_bits a) (Byte.to_bits b)).

(** [bytes(x ^ y for x, y in zip(a, b))]: stops at the shorter argument. *)
Fixpoint xor_bytes (a b : bytes) : bytes :=
  match a, b with
  | x :: a', y :: b' => byte_xor x y :: xor_bytes a' b'
  | _, _ => []
  end.

Fixpoint bytes_eqb (a b : bytes) : bool :=
  match a, b with
  | [], [] => true
  | x :: a', y :: b' => Byte.eqb x y && bytes_eqb a' b'
  | _, _ => false
  end.

(** Big-endian conversions between byte strings and integers. *)
Definition N_of_bytes (b : bytes) : N :=
  fold_left (fun acc x => (acc * 256 + Byte.to_N x)%N) b 0%N.

Fixpoint bytes_of_N (len : nat) (x : N) : bytes :=
  match len with
  | O => []
  | S n => bytes_of_N n (x / 256) ++ [byte_of_N x]
  end.

(** A Python [str]: a sequence of code points. *)
Definition pychar := N.
Definition pystr := list pychar.

Definition py (s : string) : pystr :=
  map (fun a => N_of_ascii a) (list_ascii_of_string s).

Fixpoint pystr_eqb (a b : pystr) : bool :=
  match a, b with
  | [], [] => true
  | x :: a', y :: b' => N.eqb x y && pystr_eqb a' b'
  | _, _ => false
  end.

(** [s.startswith(p)] *)
Fixpoint startswith (s p : pystr) : bool :=
  match p, s with
  | [], _ => true
  | y :: p', x :: s' => N.eqb x y && startswith s' p'
  | _ :: _, [] => false
  end.

(** [sub in s] *)
Fixpoint contains (s sub : pystr) : bool :=
  startswith s sub ||
  match s with
  | [] => false
  | _ :: s' => contains s' sub
  end.

(** [s.split(sep, 1)[0]] for a separator that occurs in [s]; the whole of
    [s] when it does not. *)
Fixpoint split_head (s sep : pystr) : pystr :=
  if startswith s sep then []
  else match s with
       | [] => []
       | c :: s' => c :: split_head s' sep
       end.

(** [s.split(sep)] for a one-character separator. *)
Fixpoint split_on (sep : pychar) (s : pystr) : list pystr :=
  match s with
  | [] => [[]]
  | c :: s' =>
      match split_on sep s' with
      | cur :: rest => if N.eqb c sep then [] :: cur :: rest
                       else (c :: cur) :: rest
      | [] => [[c]]
      end
  end.

(** [sep.join(parts)] *)
Fixpoint join (sep : pystr) (parts : list pystr) : pystr :=
  match parts with
  | [] => []
  | [p] => p
  | p :: rest => p ++ sep ++ join sep rest
  end.

(* ================================================================== *)
(** * Exceptions and results *)
(* ================================================================== *)

Inductive exn : Type :=
| ValueError
| OverflowError
| InvalidTag
| KeyError
| FileNotFoundError
| FileExistsError
| IsADirectoryError
| NotADirectoryError.

Inductive result (A : Type) : Type :=
| Ok (a : A)
| Raise (e : exn).

Arguments Ok {A} a.
Arguments Raise {A} e.

Definition rbind {A B} (r : result A) (k : A -> result B) : result B :=
  match r with
  | Ok a => k a
  | Raise e => Raise e
  end.

Declare Scope result_scope.
Delimit Scope result_scope with result.
Notation "x <-- r ;;; k" := (rbind r (fun x => k))
  (at level 100, r at next level, right associativity) : result_scope.

(* ================================================================== *)
(** * AES-GCM as provided by [cryptography.hazmat.primitives.ciphers.aead]

    The block cipher is a parameter; a block is a 128-bit big-endian
    integer. *)
(* ================================================================== *)

Module GCM.

Definition block_bits : N := 128.
Definition block_mask : N := N.ones block_bits.

(** The reduction constant R = 11100001 || 0^120. *)
Definition R : N := N.shiftl 225 120.

(** Multiplication in GF(2^128), bit 0 being the most significant bit. *)
Fixpoint gf_mul_loop (i : nat) (x z v : N) : N :=
  match i with
  | O => z
  | S j =>
      let z' := if N.testbit x (N.of_nat j) then N.lxor z v else z in
      let v' := if N.testbit v 0 then N.lxor (N.shiftr v 1) R
                else N.shiftr v 1 in
      gf_mul_loop j x z' v'
  end.

Definition gf_mul (x y : N) : N := gf_mul_loop 128 x 0%N y.

(** Zero-padding to a multiple of the block size, and cutting into blocks. *)
Definition pad16 (b : bytes) : bytes :=
  b ++ repeat x00 ((16 - length b mod 16) mod 16).

Fixpoint blocks_loop (fuel : nat) (b : bytes) : list N :=
  match fuel with
  | O => []
  | S f =>
      match b with
      | [] => []
      | _ => N_of_bytes (firstn 16 b) :: blocks_loop f (skipn 16 b)
      end
  end.

Definition blocks (b : bytes) : list N := blocks_loop (length b) b.

Definition ghash (h : N) (xs : list N) : N :=
  fold_left (fun y x => gf_mul (N.lxor y x) h) xs 0%N.

(** Increment of the rightmost 32 bits of a counter block. *)
Definition inc32 (cb : N) : N :=
  (N.shiftl (N.shiftr cb 32) 32 + (cb + 1) mod 2 ^ 32)%N.

Section WithCipher.

(** [E key block]: the forward block cipher (AES) under [key]. *)
Variable E : bytes -> N -> N.

Definition cipher (key : bytes) (blk : N) : N := N.land (E key blk) block_mask.

Definition hash_subkey (key : bytes) : N := cipher key 0%N.

(** The pre-counter block J0. *)
Definition j0 (key iv : bytes) : N :=
  if Nat.eqb (length iv) 12 then N_of_bytes (iv ++ [x00; x00; x00; x01])
  else ghash (hash_subkey key)
             (blocks (pad16 iv) ++ [N.of_nat (8 * length iv)]).

(** GCTR: counter mode starting at counter block [cb]. *)
Fixpoint gctr_loop (fuel : nat) (key : bytes) (cb : N) (x : bytes) : bytes :=
  match fuel with
  | O => []
  | S f =>
      match x with
      | [] => []
      | _ => xor_bytes (firstn 16 x) (bytes_of_N 16 (cipher key cb))
               ++ gctr_loop f key (inc32 cb) (skipn 16 x)
      end
  end.

Definition gctr (key : bytes) (icb : N) (x : bytes) : bytes :=
  gctr_loop (length x) key icb x.

(** The 16-byte authentication tag of ciphertext [c] with additional
    data [aad]. *)
Definition tag (key iv aad c : bytes) : bytes :=
  let s := ghash (hash_subkey key)
             (blocks (pad16 aad) ++ blocks (pad16 c)
              ++ [(N.of_nat (8 * length aad) * 2 ^ 64
                   + N.of_nat (8 * length c))%N]) in
  bytes_of_N 16 (N.lxor (cipher key (j0 key iv)) s).

(** Authenticated encryption: ciphertext followed by the tag. *)
Definition encrypt (key iv aad p : bytes) : bytes :=
  let c := gctr key (inc32 (j0 key iv)) p in
  c ++ tag key iv aad c.

(** Authenticated decryption of [data = ciphertext || tag]; [None] when
    the tag does not verify. *)
Definition decrypt (key iv aad data : bytes) : option bytes :=
  if Nat.ltb (length data) 16 then None
  else
    let n := length data - 16 in
    let c := firstn n data in
    let t := skipn n data in
    if bytes_eqb t (tag key iv aad c)
    then Some (gctr key (inc32 (j0 key iv)) c)
    else None.

End WithCipher.

End GCM.

(** The [AESGCM] class. *)
Module AESGCM.

(** [AESGCM._MAX_SIZE]: [encrypt] raises [OverflowError] for data larger
  than 2^31 - 1 bytes. *)
Definition _MAX_SIZE : Z := 2 ^ 31 - 1.

Record t : Type := mk { key : bytes }.

(** [AESGCM(key)]: the key must be 128, 192 or 256 bits long. *)
Definition new (k : bytes) : result t :=
if Nat.eqb (length k) 16 || Nat.eqb (length k) 24 || Nat.eqb (length k) 32
then Ok (mk k)
else Raise ValueError.

(** The nonce must be between 8 and 128 bytes long. *)
Definition check_nonce (nonce : bytes) : result unit :=
if Nat.ltb (length nonce) 8 || Nat.ltb 128 (length nonce)
then Raise ValueError
else Ok tt.

Section WithCipher.

Variable E : bytes -> N -> N.

(** [aes.encrypt(nonce, data, None)] *)
Definition encrypt (aes : t) (nonce data : bytes) : result bytes :=
  if Z.ltb _MAX_SIZE (blen data) then Raise OverflowError
  else (_ <-- check_nonce nonce ;;;
        Ok (GCM.encrypt E (key aes) nonce [] data))%result.

(** [aes.decrypt(nonce, data, None)] *)
Definition decrypt (aes : t) (nonce data : bytes) : result bytes :=
  (_ <-- check_nonce nonce ;;;
   match GCM.decrypt E (key aes) nonce [] data with
   | Some p => Ok p
   | None => Raise InvalidTag
   end)%result.

End WithCipher.

End AESGCM.


(* ================================================================== *)
(** * The file system

    Paths are absolute and normalised lists of components; there are no
    symbolic links and a [..] component is not interpreted.  Names are
    compared exactly (a case-sensitive file system).  The table lists files
    and directories in the order in which a directory scan returns them;
    a file created by a write goes to the end. *)
(* ================================================================== *)

Definition path := list pystr.

Inductive node : Type :=
| Dir
| File (content : bytes).

Definition fs := list (path * node).

Fixpoint path_eqb (a b : path) : bool :=
  match a, b with
  | [], [] => true
  | x :: a', y :: b' => pystr_eqb x y && path_eqb a' b'
  | _, _ => false
  end.

(** [a] is a proper ancestor of [b]. *)
Fixpoint strict_prefix (a b : path) : bool :=
  match a, b with
  | [], _ :: _ => true
  | x :: a', y :: b' => pystr_eqb x y && strict_prefix a' b'
  | _, [] => false
  end.

(** [b.relative_to(a)] for [a] an ancestor of [b]. *)
Definition relative_to (a b : path) : path := skipn (length a) b.

Definition parent (p : path) : path := removelast p.

(** [p.name] *)
Definition name (p : path) : pystr := last p [].

Definition slash : pychar := 47%N.

Definition is_absolute (s : pystr) : bool :=
  match s with
  | c :: _ => N.eqb c slash
  | [] => false
  end.

(** The components of a path string; empty and [.] components are dropped
    as [pathlib] does. *)
Definition path_parts (s : pystr) : list pystr :=
  filter (fun c => negb (pystr_eqb c []) && negb (pystr_eqb c (py ".")))
         (split_on slash s).

(** [d / s] *)
Definition joinpath (d : path) (s : pystr) : path :=
  if is_absolute s then path_parts s else d ++ path_parts s.

Notation "d // s" := (joinpath d s) (at level 40, left associativity).

(** A name that is one path component: not empty, not [.], without a
    separator. *)
Definition plain_name (s : pystr) : bool :=
  negb (pystr_eqb s []) && negb (pystr_eqb s (py "."))
  && negb (existsb (N.eqb slash) s).

(** [str(p)] for a relative path. *)
Definition path_str (p : path) : pystr := join [slash] p.

(** The table entry for path [q]. *)
Definition entry_at (q : path) (e : path * node) : bool := path_eqb (fst e) q.

Definition node_at (f : fs) (p : path) : option node :=
  match p with
  | [] => Some Dir
  | _ => option_map snd (find (entry_at p) f)
  end.

Definition fs_exists (f : fs) (p : path) : bool :=
  match node_at f p with
  | Some _ => true
  | None => false
  end.

Definition fs_is_file (f : fs) (p : path) : bool :=
  match node_at f p with
  | Some (File _) => true
  | _ => false
  end.

Definition fs_is_dir (f : fs) (p : path) : bool :=
  match node_at f p with
  | Some Dir => true
  | _ => false
  end.

(** Opening a file for reading and reading all of it. *)
Definition fs_read (f : fs) (p : path) : result bytes :=
  match node_at f p with
  | Some (File c) => Ok c
  | Some Dir => Raise IsADirectoryError
  | None => Raise FileNotFoundError
  end.

(** Opening a file for writing (it is created or truncated) and writing
    [c] to it. *)
Definition fs_write (f : fs) (p : path) (c : bytes) : result fs :=
  match node_at f p with
  | Some Dir => Raise IsADirectoryError
  | Some (File _) =>
      Ok (map (fun e => if path_eqb (fst e) p then (p, File c) else e) f)
  | None =>
      match node_at f (parent p) with
      | Some Dir => Ok (f ++ [(p, File c)])
      | Some (File _) => Raise NotADirectoryError
      | None => Raise FileNotFoundError
      end
  end.

(** [os.unlink]: the table without [p], and the bytes the file held. *)
Definition fs_unlink (f : fs) (p : path) : result (fs * bytes) :=
  match node_at f p with
  | Some (File c) =>
      Ok (filter (fun e => negb (path_eqb (fst e) p)) f, c)
  | Some Dir => Raise IsADirectoryError
  | None => Raise FileNotFoundError
  end.

(** [p.mkdir(parents=True, exist_ok=True)]: [done] exists, [todo] are the
    components still to visit.  Directories made before a failure stay. *)
Fixpoint mkdir_loop (f : fs) (done todo : path) : result unit * fs :=
  match todo with
  | [] => (Ok tt, f)
  | c :: rest =>
      let p := done ++ [c] in
      match node_at f p with
      | Some Dir => mkdir_loop f p rest
      | Some (File _) =>
          (Raise (match rest with
                  | [] => FileExistsError
                  | _ => NotADirectoryError
                  end), f)
      | None => mkdir_loop (f ++ [(p, Dir)]) p rest
      end
  end.

(** [d.iterdir()] *)
Definition fs_iterdir (f : fs) (d : path) : result (list path) :=
  match node_at f d with
  | Some Dir =>
      Ok (map fst (filter (fun e => match fst e with
                                    | [] => false
                                    | q => path_eqb (parent q) d
                                    end) f))
  | Some (File _) => Raise NotADirectoryError
  | None => Raise FileNotFoundError
  end.

(** [d.rglob('*')]: everything below [d]; nothing when [d] is not a
    directory. *)
Definition fs_rglob (f : fs) (d : path) : list path :=
  if fs_is_dir f d
  then map fst (filter (fun e => strict_prefix d (fst e)) f)
  else [].

(* ================================================================== *)
(** * The world and the monad of effects *)
(* ================================================================== *)

Record world : Type := mkWorld {
  files : fs;
  (** the number of bytes drawn from the operating system's CSPRNG *)
  drawn : nat;
  (** the contents that unlinked files held when they were unlinked: what
      is left on the disk after a delete *)
  residue : list bytes
}.

Definition M (A : Type) : Type := world -> result A * world.

Definition ret {A} (a : A) : M A := fun w => (Ok a, w).

Definition raise {A} (e : exn) : M A := fun w => (Raise e, w).

Definition bind {A B} (m : M A) (k : A -> M B) : M B :=
  fun w =>
    match m w with
    | (Ok a, w') => k a w'
    | (Raise e, w') => (Raise e, w')
    end.

(** [try: m  except Exception: h] *)
Definition try_except {A} (m : M A) (h : M A) : M A :=
  fun w =>
    match m w with
    | (Ok a, w') => (Ok a, w')
    | (Raise _, w') => h w'
    end.

Definition lift {A} (r : result A) : M A := fun w => (r, w).

Declare Scope m_scope.
Delimit Scope m_scope with M.
Notation "x <- m ;; k" := (bind m (fun x => k))
  (at level 100, m at next level, right associativity) : m_scope.
Notation "m ;; k" := (bind m (fun _ => k))
  (at level 100, right associativity) : m_scope.
Open Scope m_scope.

Definition get_files : M fs := fun w => (Ok (files w), w).

Definition put_files (f : fs) : M unit :=
  fun w => (Ok tt, mkWorld f (drawn w) (residue w)).

Definition path_exists (p : path) : M bool :=
  f <- get_files ;; ret (fs_exists f p).

Definition is_file (p : path) : M bool :=
  f <- get_files ;; ret (fs_is_file f p).

Definition read_bytes (p : path) : M bytes :=
  f <- get_files ;; lift (fs_read f p).

Definition write_bytes (p : path) (c : bytes) : M unit :=
  f <- get_files ;; f' <- lift (fs_write f p c) ;; put_files f'.

Definition mkdir (p : path) : M unit :=
  fun w =>
    let (r, f') := mkdir_loop (files w) [] p in
    (r, mkWorld f' (drawn w) (residue w)).

Definition iterdir (d : path) : M (list path) :=
  f <- get_files ;; lift (fs_iterdir f d).

Definition unlink (p : path) : M unit :=
  fun w =>
    match fs_unlink (files w) p with
    | Ok (f', c) => (Ok tt, mkWorld f' (drawn w) (c :: residue w))
    | Raise e => (Raise e, w)
    end.

(** [f.seek(off); f.write(chunk)] on a file opened with ['r+b']. *)
Definition write_at (p : path) (off : nat) (chunk : bytes) : M unit :=
  old <- read_bytes p ;;
  write_bytes p (firstn off old ++ chunk ++ skipn (off + length chunk) old).

(* ================================================================== *)
(** * The platform: what the script imports *)
(* ================================================================== *)

Class Platform : Type := {
  (** the AES block cipher: key, block *)
  aes_block : bytes -> N -> N;
  (** [PBKDF2HMAC(SHA256, length, salt, iterations).derive(pw)] *)
  pbkdf2_hmac_sha256 : bytes -> bytes -> Z -> nat -> bytes;
  (** the i-th byte the CSPRNG ever returns ([os.urandom],
      [secrets.token_bytes], [uuid.uuid4]) *)
  urandom_byte : nat -> byte;
  (** [base64.b64encode] *)
  b64encode : bytes -> bytes;
  (** [json.dumps({'salt': b64encode(salt).decode('ascii'),
      'iterations': n})], encoded *)
  config_dumps : bytes -> Z -> bytes;
  (** [json.load], then [base64.b64decode(config['salt'])] and
      [config.get('iterations')] *)
  config_loads : bytes -> result (bytes * option Z);
  (** the bytes of a zip archive with the given members *)
  zip_archive : list (pystr * bytes) -> bytes;
  (** [c.isalnum()] for a character outside ASCII *)
  unicode_isalnum : pychar -> bool;
  (** [s.lower()] for a string with characters outside ASCII *)
  unicode_lower : pystr -> pystr
}.

(** [b] cut or zero-padded to [n] bytes. *)
Definition fit (n : nat) (b : bytes) : bytes :=
  firstn n b ++ repeat x00 (n - length b).

(** [s.encode('utf-8')]; code points above U+10FFFF do not occur, and a
    surrogate cannot be encoded. *)
Definition utf8_char (c : pychar) : bytes :=
  if (c <? 0x80)%N then [byte_of_N c]
  else if (c <? 0x800)%N then
    [byte_of_N (0xC0 + c / 64)%N; byte_of_N (0x80 + c mod 64)%N]
  else if (c <? 0x10000)%N then
    [byte_of_N (0xE0 + c / 4096)%N; byte_of_N (0x80 + (c / 64) mod 64)%N;
     byte_of_N (0x80 + c mod 64)%N]
  else
    [byte_of_N (0xF0 + c / 262144)%N; byte_of_N (0x80 + (c / 4096) mod 64)%N;
     byte_of_N (0x80 + (c / 64) mod 64)%N; byte_of_N (0x80 + c mod 64)%N].

Definition is_surrogate (c : pychar) : bool :=
  ((0xD800 <=? c) && (c <=? 0xDFFF))%N.

Definition encode_utf8 (s : pystr) : result bytes :=
  if existsb is_surrogate s then Raise ValueError
  else Ok (flat_map utf8_char s).

(** [b.decode('ascii')] of base64 output. *)
Definition decode_ascii (b : bytes) : pystr := map Byte.to_N b.

Definition is_ascii (c : pychar) : bool := (c <? 128)%N.

Definition ascii_isalnum (c : pychar) : bool :=
  ((48 <=? c) && (c <=? 57) || (65 <=? c) && (c <=? 90)
   || (97 <=? c) && (c <=? 122))%N.

Definition ascii_lower (c : pychar) : pychar :=
  if ((65 <=? c) && (c <=? 90))%N then (c + 32)%N else c.

Definition hexdigit (n : N) : pychar :=
  if (n <? 10)%N then (48 + n)%N else (87 + n)%N.

(** ['%032x' % n] *)
Definition hex32 (n : N) : pystr :=
  flat_map (fun b => [hexdigit (Byte.to_N b / 16)%N;
                      hexdigit (Byte.to_N b mod 16)%N])
           (bytes_of_N 16 n).

(** [UUID(bytes=b, version=4).int] *)
Definition uuid4_int (b : bytes) : N :=
  let i := N_of_bytes b in
  let i := N.ldiff i (N.shiftl 0xc000 48)%N in
  let i := N.lor i (N.shiftl 0x8000 48)%N in
  let i := N.ldiff i (N.shiftl 0xf000 64)%N in
  N.lor i (N.shiftl 4 76)%N.

(** [str(u)]: the hexadecimal digits in groups of 8-4-4-4-12. *)
Definition uuid_str (u : N) : pystr :=
  let h := hex32 u in
  firstn 8 h ++ py "-" ++ firstn 4 (skipn 8 h) ++ py "-"
  ++ firstn 4 (skipn 12 h) ++ py "-" ++ firstn 4 (skipn 16 h) ++ py "-"
  ++ skipn 20 h.

(* ================================================================== *)
(** * The program: [juman_secure.py] *)
(* ================================================================== *)

Definition CONFIG_NAME : pystr := py "config.json".
Definition MASTER_KEY_ENC : pystr := py "master.key.enc".
Definition RECOVERY : pystr := py "recovery.txt".
Definition STORAGE_DIRNAME : pystr := py "storage".
Definition BACKUP_SUFFIX : pystr := py ".jumanbackup".

Definition PBKDF2_ITER : Z := 200000.
Definition SALT_LEN : nat := 16.
Definition AESGCM_IV_LEN : nat := 12.

(** The chunk size of the overwrite loop, 8192 bytes. *)
Definition CHUNK : nat := 8 * 1024.

Section Program.

Context {PF : Platform}.

(** [secrets.token_bytes(n)] and [os.urandom(n)] *)
Definition token_bytes (n : nat) : M bytes :=
  fun w => (Ok (map urandom_byte (seq (drawn w) n)),
            mkWorld (files w) (drawn w + n) (residue w)).

(** [uuid.uuid4()] *)
Definition uuid4 : M N :=
  b <- token_bytes 16 ;; ret (uuid4_int b).

Definition _derive_key (password : pystr) (salt : bytes) (iterations : Z)
  : result bytes :=
  (pw <-- encode_utf8 password ;;;
   Ok (fit 32 (pbkdf2_hmac_sha256 pw salt iterations 32)))%result.

Definition _encrypt_with_key (plaintext key : bytes) : M bytes :=
  aes <- lift (AESGCM.new key) ;;
  iv <- token_bytes AESGCM_IV_LEN ;;
  ct <- lift (AESGCM.encrypt aes_block aes iv plaintext) ;;
  ret (iv ++ ct).

Definition _decrypt_with_key (data key : bytes) : result bytes :=
  (aes <-- AESGCM.new key ;;;
   let iv := firstn AESGCM_IV_LEN data in
   let ct := skipn AESGCM_IV_LEN data in
   AESGCM.decrypt aes_block aes iv ct)%result.

Definition init_data_dir (data_dir : path) (password : option pystr)
  : M unit :=
  mkdir data_dir ;;
  let config_path := data_dir // CONFIG_NAME in
  let storage := data_dir // STORAGE_DIRNAME in
  mkdir storage ;;
  has_config <- path_exists config_path ;;
  has_key <- path_exists (data_dir // MASTER_KEY_ENC) ;;
  if has_config && has_key then ret tt
  else
    master_key <- token_bytes 32 ;;
    salt <- token_bytes SALT_LEN ;;
    password <- match password with
                | Some p => ret p
                | None => t <- token_bytes 16 ;;
                          ret (decode_ascii (b64encode t))
                end ;;
    dk <- lift (_derive_key password salt PBKDF2_ITER) ;;
    enc <- _encrypt_with_key master_key dk ;;
    write_bytes (data_dir // MASTER_KEY_ENC) enc ;;
    write_bytes config_path (config_dumps salt PBKDF2_ITER) ;;
    t <- token_bytes 24 ;;
    write_bytes (data_dir // RECOVERY) (b64encode t) ;;
    ret tt.

Definition load_master_key (data_dir : path) (password : option pystr)
  : M bytes :=
  let cfg := data_dir // CONFIG_NAME in
  let mk_enc := data_dir // MASTER_KEY_ENC in
  has_config <- path_exists cfg ;;
  has_key <- path_exists mk_enc ;;
  if negb has_config || negb has_key then raise FileNotFoundError
  else
    raw <- read_bytes cfg ;;
    config <- lift (config_loads raw) ;;
    let salt := fst config in
    let iterations := match snd config with
                      | Some n => n
                      | None => PBKDF2_ITER
                      end in
    match password with
    | None => raise ValueError
    | Some password =>
        dk <- lift (_derive_key password salt iterations) ;;
        enc <- read_bytes mk_enc ;;
        match _decrypt_with_key enc dk with
        | Ok mk => ret mk
        | Raise _ => raise ValueError
        end
    end.

(** [c.isalnum()] *)
Definition isalnum (c : pychar) : bool :=
  if is_ascii c then ascii_isalnum c else unicode_isalnum c.

(** [c in '._-'] *)
Definition in_dot_underscore_dash (c : pychar) : bool :=
  existsb (N.eqb c) (py "._-").

Definition underscore : pychar := 95%N.

Definition _sanitize_filename (fn : pystr) : pystr :=
  map (fun c => if isalnum c || in_dot_underscore_dash c then c
                else underscore) fn.

(** [path.stat().st_size]: the length of a file (the number returned
    for a directory is not used). *)
Definition st_size (p : path) : M nat :=
  f <- get_files ;;
  ret (match node_at f p with
       | Some (File c) => length c
       | _ => 0
       end).

(** One pass of the inner [while remaining > 0] loop; every round
    writes at least one byte, so [size] rounds are enough. *)
Fixpoint overwrite_loop (fuel : nat) (p : path) (off remaining : nat)
  : M unit :=
  match fuel with
  | O => ret tt
  | S fuel' =>
      if Nat.ltb 0 remaining then
        chunk <- token_bytes (Nat.min CHUNK remaining) ;;
        write_at p off chunk ;;
        overwrite_loop fuel' p (off + length chunk)
                       (remaining - length chunk)
      else ret tt
  end.

Fixpoint overwrite_passes (passes : nat) (p : path) (size : nat) : M unit :=
  match passes with
  | O => ret tt
  | S n => overwrite_loop size p 0 size ;; overwrite_passes n p size
  end.

Definition secure_overwrite_and_delete (p : path) (passes : nat) : M unit :=
  e <- path_exists p ;;
  if negb e then ret tt
  else
    size <- st_size p ;;
    (* open(path, 'r+b') *)
    _ <- read_bytes p ;;
    overwrite_passes passes p size ;;
    try_except (unlink p) (ret tt).

Definition store_encrypted (input_path : path) (password : pystr)
    (data_dir : path) : M pystr :=
  let storage := data_dir // STORAGE_DIRNAME in
  mkdir storage ;;
  mk <- load_master_key data_dir (Some password) ;;
  u <- uuid4 ;;
  let idstr := uuid_str u in
  let orig := _sanitize_filename (name input_path) in
  let out_name := idstr ++ py "__" ++ orig ++ py ".jmn" in
  let out_path := storage // out_name in
  aes <- lift (AESGCM.new mk) ;;
  iv <- token_bytes AESGCM_IV_LEN ;;
  (* with open(input_path, 'rb') as fin, open(out_path, 'wb') as fout:
     the nonce is written and [fin] is read to its end *)
  _ <- read_bytes input_path ;;
  write_bytes out_path [] ;;
  write_at out_path 0 iv ;;
  data <- read_bytes input_path ;;
  aes' <- lift (AESGCM.new mk) ;;
  ct <- lift (AESGCM.encrypt aes_block aes' iv data) ;;
  write_bytes out_path (iv ++ ct) ;;
  (* the hidden and system attributes set on Windows are not part of
     the state; failures there are swallowed *)
  try_except (secure_overwrite_and_delete input_path 1)
             (try_except (unlink input_path) (ret tt)) ;;
  ret out_name.

(** [s.lower()] *)
Definition lower (s : pystr) : pystr :=
  if forallb is_ascii s then map ascii_lower s else unicode_lower s.

Definition JMN : pystr := py ".jmn".
Definition SEP : pystr := py "__".

(** The [for p in storage_dir.iterdir()] loop of [find_stored_path]. *)
Fixpoint find_stored_loop (f : fs) (stored_filename : pystr)
    (entries : list path) : option path :=
  match entries with
  | [] => None
  | p :: rest =>
      if negb (fs_is_file f p) then find_stored_loop f stored_filename rest
      else if pystr_eqb (lower (name p)) (lower stored_filename)
              || pystr_eqb (lower (name p)) (lower (stored_filename ++ JMN))
      then Some p
      else if startswith (name p) stored_filename then Some p
      else if contains (name p) SEP
              && pystr_eqb (lower (split_head (name p) SEP))
                           (lower stored_filename)
      then Some p
      else find_stored_loop f stored_filename rest
  end.

Definition find_stored_path (storage_dir : path) (stored_filename : pystr)
  : M (option path) :=
  let direct := storage_dir // stored_filename in
  e <- path_exists direct ;;
  if e then ret (Some direct)
  else
    let alt := storage_dir // (stored_filename ++ JMN) in
    e <- path_exists alt ;;
    if e then ret (Some alt)
    else
      entries <- iterdir storage_dir ;;
      f <- get_files ;;
      ret (find_stored_loop f stored_filename entries).

Definition list_stored (data_dir : path) : M (list pystr) :=
  let storage := data_dir // STORAGE_DIRNAME in
  e <- path_exists storage ;;
  if negb e then ret []
  else
    entries <- iterdir storage ;;
    f <- get_files ;;
    ret (map name (filter (fs_is_file f) entries)).

Definition delete_stored (stored_filename password : pystr)
    (data_dir : path) : M bool :=
  let storage := data_dir // STORAGE_DIRNAME in
  found <- find_stored_path storage stored_filename ;;
  match found with
  | None => ret false
  | Some p =>
      try_except (secure_overwrite_and_delete p 1 ;; ret true)
                 (try_except (unlink p ;; ret true) (ret false))
  end.

(** [zf.write(p, arcname=arcname)] for an existing [p]. *)
Definition archive_member (f : fs) (p : path) (arcname : pystr)
  : list (pystr * bytes) :=
  match node_at f p with
  | Some (File c) => [(arcname, c)]
  | Some Dir => [(arcname ++ [slash], [])]
  | None => []
  end.

(** The members written between the opening and the closing of the
    [ZipFile] in [create_encrypted_backup]. *)
Definition backup_members (f : fs) (data_dir : path)
  : list (pystr * bytes) :=
  let storage := data_dir // STORAGE_DIRNAME in
  (if fs_exists f storage then
     flat_map
       (fun p =>
          if fs_is_file f p
          then archive_member f p
                 (path_str ([py "storage"] ++ relative_to storage p))
          else [])
       (fs_rglob f storage)
   else [])
  ++ (let cfg := data_dir // CONFIG_NAME in
      if fs_exists f cfg then archive_member f cfg (py "config.json")
      else [])
  ++ (let rec := data_dir // RECOVERY in
      if fs_exists f rec then archive_member f rec (py "recovery.txt")
      else []).

Definition create_encrypted_backup (password : pystr) (data_dir : path)
    (out_name : option pystr) : M path :=
  out_name <- match out_name with
              | Some n => ret n
              | None => u <- uuid4 ;;
                        ret (py "juman_backup_" ++ hex32 u ++ py ".zip")
              end ;;
  let zip_path := data_dir // out_name in
  (* with zipfile.ZipFile(zip_path, 'w', ZIP_DEFLATED) as zf: the file is
     created when the archive is opened and written when it is closed *)
  write_bytes zip_path [] ;;
  f <- get_files ;;
  write_bytes zip_path (zip_archive (backup_members f data_dir)) ;;
  mk <- load_master_key data_dir (Some password) ;;
  data <- read_bytes zip_path ;;
  enc <- _encrypt_with_key data mk ;;
  let out_enc := data_dir // (name zip_path ++ BACKUP_SUFFIX) in
  write_bytes out_enc enc ;;
  try_except (unlink zip_path) (ret tt) ;;
  ret out_enc.

End Program.

(* ================================================================== *)
(** * The specification's wording, for comparison with the code *)
(* ================================================================== *)

Section SpecWording.

Context {PF : Platform}.

(** The characters that a sanitised name keeps: alphanumerics, [.], [_]
    and [-]. *)
Definition allowed_char (c : pychar) : bool :=
  isalnum c || in_dot_underscore_dash c.

(** Sanitising as the specification words it: the characters outside
    the allowed set are stripped. *)
Definition strip_disallowed (fn : pystr) : pystr :=
  filter allowed_char fn.

(** The lookup as the specification words it, over the files of the
    storage directory in enumeration order: an exact name, then the name
    with the blob extension, then a case-insensitive name match, and only
    then a prefix match on the identifier before the separator. *)
Definition precedence_lookup (f : fs) (storage_dir : path) (q : pystr)
    (entries : list path) : option path :=
  let blobs := filter (fs_is_file f) entries in
  if fs_exists f (storage_dir // q) then Some (storage_dir // q)
  else if fs_exists f (storage_dir // (q ++ JMN))
  then Some (storage_dir // (q ++ JMN))
  else
    match find (fun p => pystr_eqb (lower (name p)) (lower q)) blobs with
    | Some p => Some p
    | None =>
        find (fun p => contains (name p) SEP
                       && startswith (split_head (name p) SEP) q) blobs
    end.

(** What one round of the loop of [find_stored_path] accepts. *)
Definition tolerant_match (q n : pystr) : bool :=
  pystr_eqb (lower n) (lower q)
  || pystr_eqb (lower n) (lower (q ++ JMN))
  || startswith n q
  || contains n SEP && pystr_eqb (lower (split_head n SEP)) (lower q).



End SpecWording.

(* ================================================================== *)
(** * A small platform and a small vault, to run the model on examples

  The primitives below are stand-ins with the right shapes, not the real
  AES, PBKDF2, base64, JSON or zip. *)
(* ================================================================== *)

Module Example.

Definition toy_block (k : bytes) (b : N) : N :=
  ((b + 1) * 0x9E3779B97F4A7C15 + N_of_bytes k * 31 + 7)%N.

Definition toy_kdf (pw salt : bytes) (iterations : Z) (n : nat) : bytes :=
  xor_bytes (fit n (pw ++ pw)) (fit n (salt ++ salt)).

Definition toy_random (i : nat) : byte := byte_of_N (N.of_nat (i * 37 + 11)).

Definition toy_hex (b : bytes) : bytes :=
  map (fun c => byte_of_N c) (flat_map (fun x => [hexdigit (Byte.to_N x / 16)%N;
                                                hexdigit (Byte.to_N x mod 16)%N]) b).

Definition toy_config_dumps (salt : bytes) (iterations : Z) : bytes :=
  bytes_of_N 4 (Z.to_N iterations) ++ salt.

Definition toy_config_loads (raw : bytes) : result (bytes * option Z) :=
  if Nat.ltb (length raw) 4 then Raise ValueError
  else Ok (skipn 4 raw, Some (Z.of_N (N_of_bytes (firstn 4 raw)))).

Definition toy_zip (members : list (pystr * bytes)) : bytes :=
  flat_map (fun m => bytes_of_N 2 (N.of_nat (length (fst m)))
                   ++ map byte_of_N (fst m)
                   ++ bytes_of_N 4 (N.of_nat (length (snd m)))
                   ++ snd m) members.

#[export] Instance platform : Platform := {|
  aes_block := toy_block;
  pbkdf2_hmac_sha256 := toy_kdf;
  urandom_byte := toy_random;
  b64encode := toy_hex;
  config_dumps := toy_config_dumps;
  config_loads := toy_config_loads;
  zip_archive := toy_zip;
  unicode_isalnum := fun _ => false;
  unicode_lower := fun s => s
  |}.

Definition home : path := [py "home"; py "user"].
Definition data_dir : path := home ++ [py "JuMan"].
Definition storage : path := data_dir ++ [py "storage"].
Definition password : pystr := py "Tr0ub4dor&3".

(** A machine with a home directory and one file in it. *)
Definition w0 : world :=
  mkWorld [([py "home"], Dir); (home, Dir);
         (home ++ [py "report.pdf"], File (map byte_of_N (py "PDF-DATA")))]
        0 [].

(** The same after [init]. *)
Definition w_init : world := snd (init_data_dir data_dir (Some password) w0).

(** The same after storing the report. *)
Definition w_stored : world :=
  snd (store_encrypted (home ++ [py "report.pdf"]) password data_dir w_init).


(** A storage directory with two files: a name that only starts with
    "report", listed first, and the name "REPORT". *)
Definition w_lookup : world :=
  mkWorld [([py "home"], Dir); (home, Dir); (data_dir, Dir); (storage, Dir);
           (storage ++ [py "report_final.txt"], File [x01]);
           (storage ++ [py "REPORT"], File [x02])]
          0 [].

End Example.

(** GHASH and the keystream are never unfolded by [simpl]. *)
Arguments GCM.gf_mul : simpl never.
Arguments GCM.ghash : simpl never.
Arguments GCM.tag : simpl never.
Arguments GCM.gctr : simpl never.
Arguments GCM.encrypt : simpl never.
Arguments GCM.decrypt : simpl never.
Arguments GCM.j0 : simpl never.
(** GHASH on the second test case of the GCM specification (all-zero
    128-bit key, one all-zero block): H, C and GHASH(H, {}, C). *)
Example ghash_test_case_2 :
  GCM.ghash 0x66e94bd4ef8a2c3b884cfa59ca342b2e
    [0x0388dace60b6a392f328c2b971b2fe78%N; 128%N]
  = 0xf38cbb1ad69223dcc3457ae5b6b0f885%N.
Proof. vm_compute. reflexivity. Qed.

(* ================================================================== *)
(** * Properties of the byte-string operations *)
(* ================================================================== *)

Lemma xor_bits8_involutive (a b : bits8) :
  xor_bits8 (xor_bits8 a b) b = a.
Proof.
  destruct a as (a0 & a1 & a2 & a3 & a4 & a5 & a6 & a7).
  destruct b as (b0 & b1 & b2 & b3 & b4 & b5 & b6 & b7).
  unfold xor_bits8.
  rewrite !xorb_assoc_reverse, !xorb_nilpotent, !xorb_false_r.
  reflexivity.
Qed.

Lemma byte_xor_involutive (a b : byte) : byte_xor (byte_xor a b) b = a.
Proof.
  unfold byte_xor.
  rewrite Byte.to_bits_of_bits, xor_bits8_involutive.
  apply Byte.of_bits_to_bits.
Qed.

Lemma xor_bytes_length (a b : bytes) :
  length (xor_bytes a b) = Nat.min (length a) (length b).
Proof.
  revert b; induction a as [|x a IH]; intros [|y b]; simpl; auto.
Qed.

Lemma xor_bytes_involutive (a b : bytes) :
  length a <= length b -> xor_bytes (xor_bytes a b) b = a.
Proof.
  revert b; induction a as [|x a IH]; intros [|y b] Hlen; simpl in *;
    try reflexivity; try lia.
  rewrite byte_xor_involutive, IH by lia. reflexivity.
Qed.

Lemma bytes_eqb_refl (a : bytes) : bytes_eqb a a = true.
Proof.
  induction a as [|x a IH]; simpl; auto.
  rewrite IH, (Byte.byte_dec_lb (eq_refl x)). reflexivity.
Qed.


Lemma bytes_of_N_length (n : nat) (x : N) : length (bytes_of_N n x) = n.
Proof.
  revert x; induction n as [|n IH]; intros x; simpl; auto.
  rewrite length_app, IH. simpl. lia.
Qed.

(* ================================================================== *)
(** * GCM: decryption inverts encryption and accepts nothing else *)
(* ================================================================== *)

Section GCMFacts.

Variable E : bytes -> N -> N.

Lemma gctr_loop_nil fuel key cb : GCM.gctr_loop E fuel key cb [] = [].
Proof. destruct fuel; reflexivity. Qed.

Lemma gctr_loop_step fuel key cb (x : bytes) :
  x <> [] ->
  GCM.gctr_loop E (S fuel) key cb x
  = xor_bytes (firstn 16 x) (bytes_of_N 16 (GCM.cipher E key cb))
    ++ GCM.gctr_loop E fuel key (GCM.inc32 cb) (skipn 16 x).
Proof. destruct x; [congruence | reflexivity]. Qed.

Lemma keystream_block_covers key cb (x : bytes) :
  length (firstn 16 x) <= length (bytes_of_N 16 (GCM.cipher E key cb)).
Proof. rewrite bytes_of_N_length. apply firstn_le_length. Qed.

Lemma gctr_loop_length fuel : forall key cb (x : bytes),
  length x <= fuel -> length (GCM.gctr_loop E fuel key cb x) = length x.
Proof.
  induction fuel as [|fuel IH]; intros key cb x Hlen.
  - destruct x; simpl in *; [reflexivity | lia].
  - destruct x as [|b x]; [reflexivity|].
    rewrite gctr_loop_step by discriminate.
    rewrite length_app, xor_bytes_length, bytes_of_N_length, IH.
    + rewrite <- (firstn_skipn 16 (b :: x)) at 3.
      rewrite length_app.
      pose proof (firstn_le_length 16 (b :: x)). lia.
    + rewrite length_skipn. simpl in *. lia.
Qed.

Lemma gctr_loop_involutive fuel1 : forall fuel2 key cb (x : bytes),
  length x <= fuel1 -> length x <= fuel2 ->
  GCM.gctr_loop E fuel2 key cb (GCM.gctr_loop E fuel1 key cb x) = x.
Proof.
  induction fuel1 as [|fuel1 IH]; intros fuel2 key cb x H1 H2.
  - destruct x; simpl in *; [apply gctr_loop_nil | lia].
  - destruct x as [|b x]; [apply gctr_loop_nil|].
    destruct fuel2 as [|fuel2]; [simpl in H2; lia|].
    rewrite (gctr_loop_step fuel1) by discriminate.
    set (ks := bytes_of_N 16 (GCM.cipher E key cb)).
    set (hd := xor_bytes (firstn 16 (b :: x)) ks).
    set (tl := GCM.gctr_loop E fuel1 key (GCM.inc32 cb) (skipn 16 (b :: x))).
    assert (Hhd : length hd = length (firstn 16 (b :: x))).
    { unfold hd. rewrite xor_bytes_length.
      pose proof (keystream_block_covers key cb (b :: x)). fold ks in H. lia. }
    assert (Hne : hd ++ tl <> []).
    { intros Heq. apply (f_equal (@length _)) in Heq.
      rewrite length_app, Hhd in Heq. simpl in Heq. lia. }
    rewrite gctr_loop_step by exact Hne. fold ks.
    assert (Hsplit : firstn 16 (hd ++ tl) = hd /\ skipn 16 (hd ++ tl) = tl).
    { destruct (Nat.le_gt_cases 16 (length (b :: x))) as [Hge | Hlt].
      - assert (length hd = 16)
          by (rewrite Hhd; apply firstn_length_le; exact Hge).
        rewrite firstn_app, skipn_app, H, Nat.sub_diag.
        rewrite firstn_all2, skipn_all2 by lia.
        simpl. rewrite app_nil_r. auto.
      - assert (Htl : tl = []).
        { unfold tl. rewrite skipn_all2 by lia. apply gctr_loop_nil. }
        rewrite Htl, app_nil_r.
        rewrite firstn_all2, skipn_all2; auto;
          rewrite Hhd; pose proof (firstn_le_length 16 (b :: x)); lia. }
    destruct Hsplit as [-> ->].
    unfold hd at 1. rewrite xor_bytes_involutive
      by apply keystream_block_covers.
    unfold tl. rewrite IH.
    + apply firstn_skipn.
    + rewrite length_skipn. simpl in *. lia.
    + rewrite length_skipn. simpl in *. lia.
Qed.

Lemma gctr_length key icb (x : bytes) :
  length (GCM.gctr E key icb x) = length x.
Proof. apply gctr_loop_length. lia. Qed.

Lemma gctr_involutive key icb (x : bytes) :
  GCM.gctr E key icb (GCM.gctr E key icb x) = x.
Proof.
  unfold GCM.gctr at 1. rewrite gctr_length.
  apply gctr_loop_involutive; lia.
Qed.

Lemma tag_length key iv aad c : length (GCM.tag E key iv aad c) = 16.
Proof. apply bytes_of_N_length. Qed.

Lemma encrypt_length key iv aad p :
  length (GCM.encrypt E key iv aad p) = length p + 16.
Proof.
  unfold GCM.encrypt. rewrite length_app, gctr_length, tag_length.
  reflexivity.
Qed.

(** Decryption inverts encryption. *)
Lemma gcm_decrypt_encrypt key iv aad p :
  GCM.decrypt E key iv aad (GCM.encrypt E key iv aad p) = Some p.
Proof.
  unfold GCM.decrypt. rewrite encrypt_length.
  replace (Nat.ltb (length p + 16) 16) with false
    by (symmetry; apply Nat.ltb_ge; lia).
  replace (length p + 16 - 16) with (length p) by lia.
  unfold GCM.encrypt.
  set (c := GCM.gctr E key (GCM.inc32 (GCM.j0 E key iv)) p).
  assert (Hc : length c = length p) by apply gctr_length.
  rewrite <- Hc, firstn_app, skipn_app, Nat.sub_diag, firstn_all, skipn_all.
  rewrite firstn_O, skipn_O, app_nil_r, app_nil_l, bytes_eqb_refl.
  unfold c. rewrite gctr_involutive. reflexivity.
Qed.



End GCMFacts.

(* ================================================================== *)
(** * The monad: running a computation step by step *)
(* ================================================================== *)

Lemma bind_ok {A B} (m : M A) (k : A -> M B) w a w1 :
  m w = (Ok a, w1) -> bind m k w = k a w1.
Proof. unfold bind. intros ->. reflexivity. Qed.

Lemma bind_raise {A B} (m : M A) (k : A -> M B) w e w1 :
  m w = (Raise e, w1) -> bind m k w = (Raise e, w1).
Proof. unfold bind. intros ->. reflexivity. Qed.

Lemma bind_inv {A B} (m : M A) (k : A -> M B) w r w' :
  bind m k w = (r, w') ->
  (exists a w1, m w = (Ok a, w1) /\ k a w1 = (r, w'))
  \/ (exists e, m w = (Raise e, w') /\ r = Raise e).
Proof.
  unfold bind. destruct (m w) as [[a|e] w1]; intros H.
  - left. eauto.
  - right. inversion H; subst. eauto.
Qed.

Lemma bind_inv_ok {A B} (m : M A) (k : A -> M B) w b w' :
  bind m k w = (Ok b, w') ->
  exists a w1, m w = (Ok a, w1) /\ k a w1 = (Ok b, w').
Proof.
  intros H. apply bind_inv in H as [H | (e & _ & H)]; [exact H | discriminate].
Qed.

(* ================================================================== *)
(** * The cipher engine: [_encrypt_with_key] and [_decrypt_with_key] *)
(* ================================================================== *)


Lemma AESGCM_new_32 (k : bytes) :
  length k = 32 -> AESGCM.new k = Ok (AESGCM.mk k).
Proof. unfold AESGCM.new. intros ->. reflexivity. Qed.

Lemma check_nonce_12 (iv : bytes) :
  length iv = 12 -> AESGCM.check_nonce iv = Ok tt.
Proof. unfold AESGCM.check_nonce. intros ->. reflexivity. Qed.

Section CipherEngine.

Context {PF : Platform}.

Lemma token_bytes_run n w :
  token_bytes n w
  = (Ok (map urandom_byte (seq (drawn w) n)),
     mkWorld (files w) (drawn w + n) (residue w)).
Proof. reflexivity. Qed.

Lemma token_bytes_length n w b w' :
  token_bytes n w = (Ok b, w') -> length b = n.
Proof.
  rewrite token_bytes_run. intros [= <- _].
  rewrite length_map, length_seq. reflexivity.
Qed.

(** What [_encrypt_with_key] does, step by step. *)
Lemma encrypt_with_key_run plaintext key w :
  _encrypt_with_key plaintext key w
  = match AESGCM.new key with
    | Raise e => (Raise e, w)
    | Ok aes =>
        let iv := map urandom_byte (seq (drawn w) AESGCM_IV_LEN) in
        let w' := mkWorld (files w) (drawn w + AESGCM_IV_LEN) (residue w) in
        if Z.ltb AESGCM._MAX_SIZE (blen plaintext)
        then (Raise OverflowError, w')
        else (Ok (iv ++ GCM.encrypt aes_block (AESGCM.key aes) iv []
                                    plaintext), w')
    end.
Proof.
  unfold _encrypt_with_key, bind, lift, ret.
  destruct (AESGCM.new key) as [aes|e]; [|reflexivity].
  rewrite token_bytes_run. cbv zeta.
  unfold AESGCM.encrypt.
  destruct (Z.ltb AESGCM._MAX_SIZE (blen plaintext)); [reflexivity|].
  rewrite check_nonce_12
    by (rewrite length_map, length_seq; reflexivity).
  reflexivity.
Qed.

(** A blob made of a 12-byte nonce and a GCM encryption decrypts to the
    plaintext, whatever its size. *)
Lemma decrypt_valid_blob key iv p :
  AESGCM.new key = Ok (AESGCM.mk key) ->
  length iv = AESGCM_IV_LEN ->
  _decrypt_with_key (iv ++ GCM.encrypt aes_block key iv [] p) key = Ok p.
Proof.
  intros Hkey Hiv. unfold _decrypt_with_key. rewrite Hkey.
  unfold rbind, AESGCM.decrypt.
  rewrite <- Hiv, firstn_app, skipn_app, Nat.sub_diag, firstn_all, skipn_all.
  rewrite firstn_O, skipn_O, app_nil_r, app_nil_l.
  rewrite check_nonce_12 by exact Hiv.
  unfold rbind, AESGCM.key. rewrite gcm_decrypt_encrypt. reflexivity.
Qed.


End CipherEngine.

(* ================================================================== *)
(** * Round trip and tamper detection *)
(* ================================================================== *)

(** C1 (as amended).  For every byte string [C] of at most 2^31 - 1 bytes
    and every 32-byte key [k], [_encrypt_with_key(C, k)] returns a blob
    (drawing the 12 bytes of the nonce) and [_decrypt_with_key] of that
    blob under [k] returns exactly [C]. *)
Theorem encrypt_decrypt_roundtrip {PF : Platform} (C k : bytes) (w : world) :
  length k = 32 ->
  (blen C <= AESGCM._MAX_SIZE)%Z ->
  exists blob,
    _encrypt_with_key C k w
    = (Ok blob, mkWorld (files w) (drawn w + AESGCM_IV_LEN) (residue w))
    /\ _decrypt_with_key blob k = Ok C.
Proof.
  intros Hk HC.
  rewrite encrypt_with_key_run, (AESGCM_new_32 _ Hk). cbv zeta.
  replace (Z.ltb AESGCM._MAX_SIZE (blen C)) with false
    by (symmetry; apply Z.ltb_ge; exact HC).
  eexists. split; [reflexivity|].
  apply decrypt_valid_blob.
  - apply AESGCM_new_32, Hk.
  - rewrite length_map, length_seq. reflexivity.
Qed.

Lemma encrypt_decrypt_roundtrip_witness :
  exists blob,
    _encrypt_with_key (PF := Example.platform)
      [x50; x44; x46; x2d; x44; x41; x54; x41] (repeat x07 32) Example.w0
    = (Ok blob, mkWorld (files Example.w0) (drawn Example.w0 + AESGCM_IV_LEN)
                        (residue Example.w0))
    /\ _decrypt_with_key (PF := Example.platform) blob (repeat x07 32)
       = Ok [x50; x44; x46; x2d; x44; x41; x54; x41].
Proof.
  apply (@encrypt_decrypt_roundtrip Example.platform).
  - reflexivity.
  - vm_compute. discriminate.
Defined.

(** [AESGCM.encrypt] refuses data above its size limit, so a plaintext of
    2^31 bytes has no encryption at all. *)
Lemma encrypt_with_key_oversize {PF : Platform} (C k : bytes) (w : world) :
  length k = 32 ->
  (AESGCM._MAX_SIZE < blen C)%Z ->
  fst (_encrypt_with_key C k w) = Raise OverflowError.
Proof.
  intros Hk HC.
  rewrite encrypt_with_key_run, (AESGCM_new_32 _ Hk). cbv zeta.
  replace (Z.ltb AESGCM._MAX_SIZE (blen C)) with true
    by (symmetry; apply Z.ltb_lt; exact HC).
  reflexivity.
Qed.

Lemma blen_repeat (b : byte) (n : Z) :
  (0 <= n)%Z -> blen (repeat b (Z.to_nat n)) = n.
Proof. intros Hn. unfold blen. rewrite repeat_length. lia. Qed.

(** C1, counterexample: with a plaintext of 2^31 zero bytes and a 32-byte
    key, encryption raises [OverflowError]; there is no blob to decrypt. *)
Lemma roundtrip_fails_above_size_limit :
  let C := repeat x00 (Z.to_nat 2147483648) in
  let k := repeat x00 32 in
  fst (_encrypt_with_key (PF := Example.platform) C k Example.w0)
  = Raise OverflowError
  /\ ~ (exists blob,
          fst (_encrypt_with_key (PF := Example.platform) C k Example.w0)
          = Ok blob
          /\ _decrypt_with_key (PF := Example.platform) blob k = Ok C).
Proof.
  intros C k.
  assert (H : fst (_encrypt_with_key (PF := Example.platform) C k Example.w0)
              = Raise OverflowError).
  { apply encrypt_with_key_oversize.
    - reflexivity.
    - unfold C. rewrite blen_repeat by lia. reflexivity. }
  split; [exact H|].
  intros (blob & Hblob & _). rewrite H in Hblob. discriminate.
Qed.




(* ================================================================== *)
(** * Strings and paths *)
(* ================================================================== *)

Lemma pystr_eqb_eq (a b : pystr) : pystr_eqb a b = true <-> a = b.
Proof.
  revert b; induction a as [|x a IH]; intros [|y b]; simpl;
    try (split; [discriminate | intros [=]]); try tauto.
  rewrite andb_true_iff, N.eqb_eq, IH.
  split; [intros [-> ->]; reflexivity | intros [= -> ->]; auto].
Qed.

Lemma pystr_eqb_refl (a : pystr) : pystr_eqb a a = true.
Proof. apply pystr_eqb_eq. reflexivity. Qed.

Lemma pystr_eqb_neq (a b : pystr) : pystr_eqb a b = false <-> a <> b.
Proof.
  rewrite <- pystr_eqb_eq. destruct (pystr_eqb a b); split; congruence.
Qed.

Lemma path_eqb_eq (a b : path) : path_eqb a b = true <-> a = b.
Proof.
  revert b; induction a as [|x a IH]; intros [|y b]; simpl;
    try (split; [discriminate | intros [=]]); try tauto.
  rewrite andb_true_iff, pystr_eqb_eq, IH.
  split; [intros [-> ->]; reflexivity | intros [= -> ->]; auto].
Qed.

Lemma path_eqb_refl (a : path) : path_eqb a a = true.
Proof. apply path_eqb_eq. reflexivity. Qed.

Lemma path_eqb_neq (a b : path) : path_eqb a b = false <-> a <> b.
Proof.
  rewrite <- path_eqb_eq. destruct (path_eqb a b); split; congruence.
Qed.

Lemma path_eqb_sym (a b : path) : path_eqb a b = path_eqb b a.
Proof.
  destruct (path_eqb a b) eqn:H.
  - apply path_eqb_eq in H. subst. symmetry. apply path_eqb_refl.
  - destruct (path_eqb b a) eqn:H'; [|reflexivity].
    apply path_eqb_eq in H'. subst. rewrite path_eqb_refl in H. discriminate.
Qed.

Arguments path_eqb : simpl never.
Arguments strict_prefix : simpl nomatch.

Lemma split_on_no_sep (sep : pychar) (s : pystr) :
  existsb (N.eqb sep) s = false -> split_on sep s = [s].
Proof.
  induction s as [|c s IH]; simpl; [reflexivity|].
  intros H. apply orb_false_iff in H as [Hc Hs].
  rewrite (IH Hs). rewrite N.eqb_sym, Hc. reflexivity.
Qed.

Lemma plain_name_not_absolute (s : pystr) :
  plain_name s = true -> is_absolute s = false.
Proof.
  unfold plain_name, is_absolute. destruct s as [|c s]; [reflexivity|].
  simpl. intros H. apply andb_true_iff in H as [_ H].
  apply negb_true_iff, orb_false_iff in H as [H _].
  rewrite N.eqb_sym. exact H.
Qed.

(** Joining a directory and a plain name appends one component. *)
Lemma joinpath_plain (d : path) (s : pystr) :
  plain_name s = true -> d // s = d ++ [s].
Proof.
  intros H. unfold joinpath. rewrite (plain_name_not_absolute _ H).
  unfold plain_name in H.
  apply andb_true_iff in H as [H Hsep].
  apply negb_true_iff in Hsep.
  unfold path_parts. rewrite (split_on_no_sep _ _ Hsep).
  simpl. rewrite H. reflexivity.
Qed.

Lemma name_snoc (d : path) (s : pystr) : name (d ++ [s]) = s.
Proof. unfold name. apply last_last. Qed.

Lemma parent_snoc (d : path) (s : pystr) : parent (d ++ [s]) = d.
Proof. unfold parent. apply removelast_last. Qed.

Lemma snoc_not_nil {A} (d : list A) (s : A) : d ++ [s] <> [].
Proof. destruct d; discriminate. Qed.

Lemma strict_prefix_irrefl (a : path) : strict_prefix a a = false.
Proof.
  induction a as [|x a IH]; simpl; [reflexivity|].
  rewrite IH. apply andb_false_r.
Qed.

Lemma strict_prefix_app (a b : path) :
  strict_prefix a b = true <-> exists t, t <> [] /\ b = a ++ t.
Proof.
  revert b; induction a as [|x a IH]; intros [|y b]; simpl.
  - split; [discriminate | intros (t & Ht & Heq); subst; congruence].
  - split; [intros _; exists (y :: b); split; [discriminate | reflexivity]
           | reflexivity].
  - split; [discriminate | intros (t & _ & [=])].
  - rewrite andb_true_iff, pystr_eqb_eq, IH. split.
    + intros [-> (t & Ht & ->)]. exists t. auto.
    + intros (t & Ht & [= -> ->]). split; [reflexivity|]. exists t. auto.
Qed.

Lemma strict_prefix_siblings (d : path) (s t : pystr) :
  strict_prefix (d ++ [s]) (d ++ [t]) = false.
Proof.
  destruct (strict_prefix (d ++ [s]) (d ++ [t])) eqn:H; [|reflexivity].
  apply strict_prefix_app in H as (u & Hu & Heq).
  apply (f_equal (@length _)) in Heq. rewrite !length_app in Heq.
  destruct u; [congruence | simpl in Heq; lia].
Qed.

Lemma strict_prefix_child_not_parent (d : path) (s : pystr) (t : path) :
  strict_prefix (d ++ [s]) (d ++ t) = true -> exists t', t = s :: t' /\ t' <> [].
Proof.
  intros H. apply strict_prefix_app in H as (u & Hu & Heq).
  rewrite <- app_assoc in Heq. apply app_inv_head in Heq.
  exists u. auto.
Qed.

(* ================================================================== *)
(** * The file system: what reads see after a write, a delete, a mkdir *)
(* ================================================================== *)

Lemma node_at_cons (f : fs) (q : path) :
  q <> [] -> node_at f q = option_map snd (find (entry_at q) f).
Proof. destruct q; [congruence | reflexivity]. Qed.

Lemma node_at_root (f : fs) : node_at f [] = Some Dir.
Proof. reflexivity. Qed.

Lemma find_snoc {A} (P : A -> bool) (l : list A) (x : A) :
  find P (l ++ [x])
  = match find P l with
    | Some y => Some y
    | None => if P x then Some x else None
    end.
Proof.
  induction l as [|y l IH]; simpl; [reflexivity|].
  destruct (P y); [reflexivity | exact IH].
Qed.

Lemma node_at_snoc (f : fs) (p q : path) (n : node) :
  node_at f p = None ->
  node_at (f ++ [(p, n)]) q = if path_eqb q p then Some n else node_at f q.
Proof.
  intros Hp. destruct q as [|c q].
  - destruct p; [discriminate | reflexivity].
  - rewrite !node_at_cons by discriminate. rewrite find_snoc.
    replace (entry_at (c :: q) (p, n)) with (path_eqb (c :: q) p)
      by (unfold entry_at; apply path_eqb_sym).
    destruct (path_eqb (c :: q) p) eqn:Hq.
    + apply path_eqb_eq in Hq. subst p.
      rewrite node_at_cons in Hp by discriminate.
      destruct (find _ f); [discriminate | reflexivity].
    + destruct (find _ f); reflexivity.
Qed.

Lemma node_at_replace (f : fs) (p q : path) (c : bytes) :
  p <> [] ->
  node_at (map (fun e => if path_eqb (fst e) p then (p, File c) else e) f) q
  = if path_eqb q p
    then match node_at f q with Some _ => Some (File c) | None => None end
    else node_at f q.
Proof.
  intros Hp. destruct q as [|x q].
  - destruct p; [congruence | reflexivity].
  - rewrite !node_at_cons by discriminate.
    induction f as [|e f IH]; cbn [map find].
    + destruct (path_eqb (x :: q) p); reflexivity.
    + destruct (path_eqb (fst e) p) eqn:Hep.
      * apply path_eqb_eq in Hep.
        assert (H1 : entry_at (x :: q) (p, File c) = path_eqb (x :: q) p)
          by (unfold entry_at; apply path_eqb_sym).
        assert (H2 : entry_at (x :: q) e = path_eqb (x :: q) p)
          by (unfold entry_at; rewrite Hep; apply path_eqb_sym).
        rewrite H1, H2.
        destruct (path_eqb (x :: q) p); [reflexivity | exact IH].
      * destruct (entry_at (x :: q) e) eqn:Heq; [|exact IH].
        unfold entry_at in Heq. apply path_eqb_eq in Heq.
        rewrite <- Heq, Hep. reflexivity.
Qed.

(** After a successful write, a read of the written path sees the new
    content and every other path is as before. *)
Lemma node_at_write (f f' : fs) (p q : path) (c : bytes) :
  fs_write f p c = Ok f' ->
  node_at f' q = if path_eqb q p then Some (File c) else node_at f q.
Proof.
  unfold fs_write.
  destruct (node_at f p) as [[|old]|] eqn:Hp; [discriminate| |].
  - intros [= <-]. rewrite node_at_replace by (intros ->; discriminate).
    destruct (path_eqb q p) eqn:Hq; [|reflexivity].
    apply path_eqb_eq in Hq. subst q. rewrite Hp. reflexivity.
  - destruct (node_at f (parent p)) as [[|?]|]; try discriminate.
    intros [= <-]. apply node_at_snoc. exact Hp.
Qed.

Lemma fs_write_not_dir (f f' : fs) (p : path) (c : bytes) :
  fs_write f p c = Ok f' -> node_at f p <> Some Dir.
Proof. unfold fs_write. intros H Hp. rewrite Hp in H. discriminate. Qed.

(** A write to an existing file always succeeds. *)
Lemma fs_write_file (f : fs) (p : path) (old c : bytes) :
  node_at f p = Some (File old) -> exists f', fs_write f p c = Ok f'.
Proof. unfold fs_write. intros ->. eauto. Qed.

Lemma find_filter_neg (f : fs) (p q : path) :
  find (entry_at q) (filter (fun e => negb (path_eqb (fst e) p)) f)
  = if path_eqb q p then None else find (entry_at q) f.
Proof.
  induction f as [|e f IH]; cbn [filter find].
  - destruct (path_eqb q p); reflexivity.
  - destruct (path_eqb (fst e) p) eqn:Hep; cbn [negb find].
    + rewrite IH. destruct (path_eqb q p) eqn:Hq; [reflexivity|].
      apply path_eqb_eq in Hep.
      destruct (entry_at q e) eqn:Heq; [|reflexivity].
      unfold entry_at in Heq. apply path_eqb_eq in Heq.
      rewrite <- Heq, Hep, path_eqb_refl in Hq. discriminate.
    + destruct (entry_at q e) eqn:Heq; [|exact IH].
      unfold entry_at in Heq. apply path_eqb_eq in Heq.
      rewrite <- Heq, Hep. reflexivity.
Qed.

(** After a successful unlink the path is gone and every other path is as
    before. *)
Lemma node_at_unlink (f f' : fs) (p q : path) (c : bytes) :
  fs_unlink f p = Ok (f', c) ->
  node_at f p = Some (File c)
  /\ node_at f' q = if path_eqb q p then None else node_at f q.
Proof.
  unfold fs_unlink.
  destruct (node_at f p) as [[|old]|] eqn:Hp; try discriminate.
  intros [= <- <-]. split; [reflexivity|].
  destruct q as [|x q].
  - destruct p; [discriminate | reflexivity].
  - rewrite !node_at_cons by discriminate. rewrite find_filter_neg.
    destruct (path_eqb (x :: q) p); reflexivity.
Qed.

(** [mkdir] only adds directories, and only on the way to its target. *)
Lemma mkdir_loop_node_at (todo : path) : forall (f : fs) (done : path) r f' q,
  mkdir_loop f done todo = (r, f') ->
  node_at f' q = node_at f q
  \/ (node_at f q = None /\ node_at f' q = Some Dir
      /\ exists t1 t2, todo = t1 ++ t2 /\ t1 <> [] /\ q = done ++ t1).
Proof.
  induction todo as [|c rest IH]; intros f done r f' q; simpl.
  - intros [= _ <-]. left. reflexivity.
  - destruct (node_at f (done ++ [c])) as [[|old]|] eqn:Hp.
    + intros H. apply IH with (q := q) in H as [H | (H1 & H2 & t1 & t2 & -> & Ht & ->)];
        [left; exact H|].
      right. repeat split; auto.
      exists (c :: t1), t2. rewrite <- app_assoc. repeat split; auto.
      discriminate.
    + intros [= _ <-]. left. reflexivity.
    + intros H. apply IH with (q := q) in H.
      rewrite node_at_snoc in H by exact Hp.
      destruct (path_eqb q (done ++ [c])) eqn:Hq.
      * apply path_eqb_eq in Hq. subst q. right.
        destruct H as [H | (H & _)]; [|discriminate].
        repeat split; auto.
        exists [c], rest. repeat split; auto. discriminate.
      * destruct H as [H | (H1 & H2 & t1 & t2 & -> & Ht & ->)];
          [left; exact H|].
        right. repeat split; auto.
        exists (c :: t1), t2. rewrite <- app_assoc. repeat split; auto.
        discriminate.
Qed.

(** What exists before a [mkdir] is unchanged by it. *)
Lemma mkdir_loop_preserves (todo : path) (f : fs) (done : path) r f' q n :
  mkdir_loop f done todo = (r, f') ->
  node_at f q = Some n -> node_at f' q = Some n.
Proof.
  intros H Hq.
  apply mkdir_loop_node_at with (q := q) in H as [H | (H & _)]; congruence.
Qed.

(** A successful [mkdir] leaves its target a directory. *)
Lemma mkdir_loop_ok_is_dir (todo : path) : forall (f : fs) (done : path) f',
  node_at f done = Some Dir ->
  mkdir_loop f done todo = (Ok tt, f') ->
  node_at f' (done ++ todo) = Some Dir.
Proof.
  induction todo as [|c rest IH]; intros f done f' Hdone; simpl.
  - intros [= <-]. rewrite app_nil_r. exact Hdone.
  - replace (done ++ c :: rest) with ((done ++ [c]) ++ rest)
      by (rewrite <- app_assoc; reflexivity).
    destruct (node_at f (done ++ [c])) as [[|old]|] eqn:Hp.
    + apply IH. exact Hp.
    + discriminate.
    + apply IH. rewrite node_at_snoc by exact Hp.
      rewrite path_eqb_refl. reflexivity.
Qed.

(* ================================================================== *)
(** * The primitive effects, run on a world *)
(* ================================================================== *)

Lemma path_exists_run (p : path) (w : world) :
  path_exists p w = (Ok (fs_exists (files w) p), w).
Proof. reflexivity. Qed.

Lemma read_bytes_run (p : path) (w : world) :
  read_bytes p w = (fs_read (files w) p, w).
Proof. reflexivity. Qed.

Lemma iterdir_run (d : path) (w : world) :
  iterdir d w = (fs_iterdir (files w) d, w).
Proof. reflexivity. Qed.

Lemma write_bytes_run (p : path) (c : bytes) (w : world) :
  write_bytes p c w
  = match fs_write (files w) p c with
    | Ok f' => (Ok tt, mkWorld f' (drawn w) (residue w))
    | Raise e => (Raise e, w)
    end.
Proof.
  unfold write_bytes, bind, get_files, lift, put_files.
  destruct (fs_write (files w) p c); reflexivity.
Qed.

Lemma mkdir_run (p : path) (w : world) :
  mkdir p w
  = (fst (mkdir_loop (files w) [] p),
     mkWorld (snd (mkdir_loop (files w) [] p)) (drawn w) (residue w)).
Proof. unfold mkdir. destruct (mkdir_loop (files w) [] p). reflexivity. Qed.

Lemma mkdir_preserves (p : path) (w : world) r w' :
  mkdir p w = (r, w') ->
  drawn w' = drawn w /\ residue w' = residue w
  /\ (forall q n, node_at (files w) q = Some n ->
                  node_at (files w') q = Some n).
Proof.
  rewrite mkdir_run. intros [= _ <-]. cbn [drawn residue files].
  repeat split. intros q n Hq.
  eapply mkdir_loop_preserves; [apply surjective_pairing | exact Hq].
Qed.

Lemma fs_exists_node_at (f : fs) (p : path) :
  fs_exists f p = true <-> exists n, node_at f p = Some n.
Proof.
  unfold fs_exists. destruct (node_at f p) as [n|].
  - split; eauto.
  - split; [discriminate | intros (n & [=])].
Qed.

(* ================================================================== *)
(** * The key vault: [init_data_dir] and [load_master_key] *)
(* ================================================================== *)

Section KeyVault.

Context {PF : Platform}.

(** [load_master_key] changes nothing, and reads only [config.json] and
    [master.key.enc]. *)
Lemma load_master_key_pure (data_dir : path) (pw : option pystr) (w : world) :
  snd (load_master_key data_dir pw w) = w.
Proof.
  unfold load_master_key, bind. rewrite !path_exists_run.
  destruct (negb _ || negb _); [reflexivity|].
  rewrite read_bytes_run. destruct (fs_read _ _); [|reflexivity].
  unfold lift. destruct (config_loads _); [|reflexivity].
  destruct pw; [|reflexivity].
  destruct (_derive_key _ _ _); [|reflexivity].
  rewrite read_bytes_run. destruct (fs_read _ _); [|reflexivity].
  destruct (_decrypt_with_key _ _); reflexivity.
Qed.

Lemma load_master_key_ext (data_dir : path) (pw : option pystr)
    (w1 w2 : world) :
  node_at (files w1) (data_dir // CONFIG_NAME)
  = node_at (files w2) (data_dir // CONFIG_NAME) ->
  node_at (files w1) (data_dir // MASTER_KEY_ENC)
  = node_at (files w2) (data_dir // MASTER_KEY_ENC) ->
  fst (load_master_key data_dir pw w1) = fst (load_master_key data_dir pw w2).
Proof.
  intros Hc Hk.
  unfold load_master_key, bind. rewrite !path_exists_run.
  unfold fs_exists. rewrite Hc, Hk.
  destruct (negb _ || negb _); [reflexivity|].
  rewrite !read_bytes_run. unfold fs_read. rewrite Hc.
  destruct (node_at (files w2) (data_dir // CONFIG_NAME)) as [[|raw]|];
    try reflexivity.
  unfold lift. destruct (config_loads _); [|reflexivity].
  destruct pw; [|reflexivity].
  destruct (_derive_key _ _ _); [|reflexivity].
  rewrite !read_bytes_run. unfold fs_read. rewrite Hk.
  destruct (node_at (files w2) (data_dir // MASTER_KEY_ENC)) as [[|enc]|];
    try reflexivity.
  destruct (_decrypt_with_key _ _); reflexivity.
Qed.

(** On an initialised vault [init_data_dir] draws no randomness, deletes
    nothing and leaves every existing file and directory as it is. *)
Lemma init_initialized_preserves (data_dir : path) (pw : option pystr)
    (w : world) :
  fs_exists (files w) (data_dir // CONFIG_NAME) = true ->
  fs_exists (files w) (data_dir // MASTER_KEY_ENC) = true ->
  let w' := snd (init_data_dir data_dir pw w) in
  drawn w' = drawn w /\ residue w' = residue w
  /\ (forall q n, node_at (files w) q = Some n ->
                  node_at (files w') q = Some n).
Proof.
  intros Hc Hk. unfold init_data_dir, bind.
  destruct (mkdir data_dir w) as [[[]|e1] w1] eqn:H1;
    apply mkdir_preserves in H1 as (Hd1 & Hr1 & Hn1);
    [|cbn [snd]; auto].
  destruct (mkdir (data_dir // STORAGE_DIRNAME) w1) as [[[]|e2] w2] eqn:H2;
    apply mkdir_preserves in H2 as (Hd2 & Hr2 & Hn2);
    [|cbn [snd]; repeat split; try congruence; auto].
  rewrite !path_exists_run.
  apply fs_exists_node_at in Hc as (nc & Hc).
  apply fs_exists_node_at in Hk as (nk & Hk).
  unfold fs_exists.
  rewrite (Hn2 _ _ (Hn1 _ _ Hc)), (Hn2 _ _ (Hn1 _ _ Hk)).
  cbn [andb snd ret]. repeat split; try congruence; auto.
Qed.

End KeyVault.

(** C4.  On a vault that is already initialised ([config.json] and
    [master.key.enc] both present), [init_data_dir] generates no key
    material, leaves every existing file with its content (the wrapped key
    and the configuration among them), and the master key that
    [load_master_key] recovers for any password is the one recovered
    before the call. *)
Theorem init_twice_keeps_key {PF : Platform} (data_dir : path)
    (pw : option pystr) (w : world) :
  fs_exists (files w) (data_dir // CONFIG_NAME) = true ->
  fs_exists (files w) (data_dir // MASTER_KEY_ENC) = true ->
  let w' := snd (init_data_dir data_dir pw w) in
  drawn w' = drawn w
  /\ fs_read (files w') (data_dir // MASTER_KEY_ENC)
     = fs_read (files w) (data_dir // MASTER_KEY_ENC)
  /\ fs_read (files w') (data_dir // CONFIG_NAME)
     = fs_read (files w) (data_dir // CONFIG_NAME)
  /\ (forall q c, fs_read (files w) q = Ok c -> fs_read (files w') q = Ok c)
  /\ (forall p, fst (load_master_key data_dir p w')
                = fst (load_master_key data_dir p w)).
Proof.
  intros Hc Hk w'.
  destruct (init_initialized_preserves data_dir pw w Hc Hk)
    as (Hd & _ & Hn). fold w' in Hd, Hn.
  apply fs_exists_node_at in Hc as (nc & Hc).
  apply fs_exists_node_at in Hk as (nk & Hk).
  assert (Hc' := Hn _ _ Hc). assert (Hk' := Hn _ _ Hk).
  split; [exact Hd|]. unfold fs_read.
  split; [rewrite Hk, Hk'; reflexivity|].
  split; [rewrite Hc, Hc'; reflexivity|].
  split.
  - intros q c. destruct (node_at (files w) q) as [[|c0]|] eqn:Hq;
      try discriminate.
    rewrite (Hn _ _ Hq). auto.
  - intros p. apply load_master_key_ext; congruence.
Qed.

Lemma init_twice_keeps_key_witness :
  let w' := snd (init_data_dir (PF := Example.platform) Example.data_dir
                   (Some (py "another password")) Example.w_init) in
  drawn w' = drawn Example.w_init
  /\ fs_read (files w') (Example.data_dir // MASTER_KEY_ENC)
     = fs_read (files Example.w_init) (Example.data_dir // MASTER_KEY_ENC)
  /\ fs_read (files w') (Example.data_dir // CONFIG_NAME)
     = fs_read (files Example.w_init) (Example.data_dir // CONFIG_NAME)
  /\ (forall q c, fs_read (files Example.w_init) q = Ok c ->
                  fs_read (files w') q = Ok c)
  /\ (forall p, fst (load_master_key (PF := Example.platform)
                       Example.data_dir p w')
                = fst (load_master_key (PF := Example.platform)
                         Example.data_dir p Example.w_init)).
Proof.
  apply (@init_twice_keeps_key Example.platform);
    vm_compute; reflexivity.
Defined.

(* ================================================================== *)
(** * The tolerant lookup: [find_stored_path] *)
(* ================================================================== *)

Section Lookup.

Context {PF : Platform}.

(** The loop returns the first entry that is a file and that one round
    accepts. *)
Lemma find_stored_loop_find (f : fs) (q : pystr) (entries : list path) :
  find_stored_loop f q entries
  = find (fun p => fs_is_file f p && tolerant_match q (name p)) entries.
Proof.
  induction entries as [|p rest IH]; cbn [find_stored_loop find];
    [reflexivity|].
  unfold tolerant_match.
  destruct (fs_is_file f p); cbn [negb andb]; [|exact IH].
  destruct (pystr_eqb (lower (name p)) (lower q)
            || pystr_eqb (lower (name p)) (lower (q ++ JMN)));
    cbn [orb]; [reflexivity|].
  destruct (startswith (name p) q); cbn [orb]; [reflexivity|].
  destruct (contains (name p) SEP
            && pystr_eqb (lower (split_head (name p) SEP)) (lower q));
    [reflexivity | exact IH].
Qed.

End Lookup.

(** C6 (as amended).  [find_stored_path] returns the path with exactly
    the queried name when something has it; otherwise the path with the
    name plus [.jmn] when something has that; otherwise the first entry of
    the storage directory, in enumeration order, that is a regular file and
    whose name equals the query or the query plus [.jmn] without regard to
    case, or starts with the query, or has an identifier part (before
    [__]) equal to the query without regard to case; [None] when no entry
    is such a file.  It changes nothing. *)
Theorem find_stored_path_first_match {PF : Platform} (storage_dir : path)
    (q : pystr) (w : world) :
  find_stored_path storage_dir q w
  = (if fs_exists (files w) (storage_dir // q)
     then Ok (Some (storage_dir // q))
     else if fs_exists (files w) (storage_dir // (q ++ JMN))
     then Ok (Some (storage_dir // (q ++ JMN)))
     else match fs_iterdir (files w) storage_dir with
          | Ok entries =>
              Ok (find (fun p => fs_is_file (files w) p
                                 && tolerant_match q (name p)) entries)
          | Raise e => Raise e
          end, w).
Proof.
  unfold find_stored_path, bind. rewrite !path_exists_run.
  destruct (fs_exists (files w) (storage_dir // q)); [reflexivity|].
  rewrite path_exists_run.
  destruct (fs_exists (files w) (storage_dir // (q ++ JMN))); [reflexivity|].
  rewrite iterdir_run.
  destruct (fs_iterdir (files w) storage_dir) as [entries|e]; [|reflexivity].
  unfold get_files, ret. rewrite find_stored_loop_find. reflexivity.
Qed.

(** C6, counterexample: the storage directory lists [report_final.txt]
    and then [REPORT]; the query is [report].  The precedence the claim
    states resolves to [REPORT] (a case-insensitive match, and
    [report_final.txt] has no identifier part at all); the code returns
    [report_final.txt], which merely starts with the query. *)
Lemma lookup_returns_earlier_prefix_match :
  fst (find_stored_path (PF := Example.platform) Example.storage
         (py "report") Example.w_lookup)
  = Ok (Some (Example.storage ++ [py "report_final.txt"]))
  /\ fs_iterdir (files Example.w_lookup) Example.storage
     = Ok [Example.storage ++ [py "report_final.txt"];
           Example.storage ++ [py "REPORT"]]
  /\ precedence_lookup (PF := Example.platform) (files Example.w_lookup)
       Example.storage (py "report")
       [Example.storage ++ [py "report_final.txt"];
        Example.storage ++ [py "REPORT"]]
     = Some (Example.storage ++ [py "REPORT"]).
Proof. repeat split; vm_compute; reflexivity. Qed.

(* ================================================================== *)
(** * Sanitised names: [_sanitize_filename] *)
(* ================================================================== *)

(** C7 (as amended).  The sanitised name has the length of the original
    name; at every position it has the original character when that is
    alphanumeric or one of [.], [_], [-], and an underscore otherwise:
    characters outside the set are replaced, not removed. *)
Theorem sanitize_replaces_with_underscore {PF : Platform} (fn : pystr) :
  length (_sanitize_filename fn) = length fn
  /\ forall i c, nth_error fn i = Some c ->
                 nth_error (_sanitize_filename fn) i
                 = Some (if allowed_char c then c else underscore).
Proof.
  unfold _sanitize_filename. split; [apply length_map|].
  intros i c Hc. unfold allowed_char.
  apply map_nth_error
    with (f := fun c => if isalnum c || in_dot_underscore_dash c then c
                        else underscore).
  exact Hc.
Qed.

Lemma sanitize_replaces_with_underscore_witness :
  length (_sanitize_filename (PF := Example.platform) (py "my file.txt"))
  = length (py "my file.txt")
  /\ (nth_error (py "my file.txt") 2 = Some 32%N ->
      nth_error (_sanitize_filename (PF := Example.platform)
                   (py "my file.txt")) 2
      = Some (if allowed_char (PF := Example.platform) 32%N then 32%N
              else underscore)).
Proof.
  destruct (@sanitize_replaces_with_underscore Example.platform
              (py "my file.txt")) as [Hlen Hnth].
  split; [exact Hlen | exact (Hnth 2 32%N)].
Defined.

(** C7, counterexample: for ["my file.txt"] the code gives
    ["my_file.txt"], while stripping gives ["myfile.txt"]. *)
Lemma sanitize_does_not_strip :
  _sanitize_filename (PF := Example.platform) (py "my file.txt")
  = py "my_file.txt"
  /\ strip_disallowed (PF := Example.platform) (py "my file.txt")
     = py "myfile.txt"
  /\ _sanitize_filename (PF := Example.platform) (py "my file.txt")
     <> strip_disallowed (PF := Example.platform) (py "my file.txt").
Proof. repeat split; vm_compute; try reflexivity. discriminate. Qed.

(* ================================================================== *)
(** * Deleting: [delete_stored] *)
(* ================================================================== *)

(** C10.  The result of [delete_stored] and the world it leaves are the
    same for any two passwords: the password is never looked at. *)
Theorem delete_ignores_password {PF : Platform} (stored_filename : pystr)
    (p1 p2 : pystr) (data_dir : path) (w : world) :
  delete_stored stored_filename p1 data_dir w
  = delete_stored stored_filename p2 data_dir w.
Proof. unfold delete_stored. reflexivity. Qed.

(** On the example vault a wrong password does not open the master key,
    and still deletes the stored report. *)
Lemma delete_with_wrong_password :
  fst (load_master_key (PF := Example.platform) Example.data_dir
         (Some (py "wrong")) Example.w_stored) = Raise ValueError
  /\ fst (delete_stored (PF := Example.platform) (py "2f54799e")
            (py "wrong") Example.data_dir Example.w_stored) = Ok true
  /\ fst (list_stored Example.data_dir
            (snd (delete_stored (PF := Example.platform) (py "2f54799e")
                    (py "wrong") Example.data_dir Example.w_stored)))
     = Ok [].
Proof. repeat split; vm_compute; reflexivity. Qed.
